(** * codex-go: a shallow embedding of the client wrapper

    The Go package wraps the [codex] executable: [New]/[SetLogger] configure a
    client, [command] builds an [exec.Cmd], [Login] runs [codex login] under
    the client's mutex and [Invoke] talks to [codex mcp] through one tool call.

    Conventions of the embedding:
    - a Go pointer [*T] that is only tested against nil and dereferenced is an
      [option T]; a Go map value is an [option (gmap ..)], [None] being the
      nil map; an [error] is [option error], [None] being nil;
    - a function that mutates an [invokeOptions] through a pointer takes the
      structure and returns the structure after the call next to its Go
      result;
    - what the package asks of the outside (the inherited environment, running
      a process, the MCP session) is a [World]; the calls made to it are
      recorded, in order, in a trace of [event]s;
    - a run-time panic is a value of [outcome]. *)

From stdpp Require Import base option list strings gmap functions relations.

Local Open Scope string_scope.

(** ** Values of Go's [any] that travel in the argument mapping *)

#[local] Set Warnings "-register-all".

Inductive any : Type :=
  | any_string (s : string)
  | any_bool (b : bool)
  | any_int (z : Z)
  | any_map (m : gmap string any).

(** ** Errors, panics *)

(** [errors.New msg]; [Error_] is the method [Error()]. *)
Inductive error : Type :=
  | errors_New (msg : string).

Definition Error_ (e : error) : string :=
  match e with errors_New msg => msg end.

Inductive panic : Type :=
  | index_out_of_range (index len : nat)
  | interface_conversion.

Inductive outcome (A : Type) : Type :=
  | Returned (a : A)
  | Panicked (p : panic).
Arguments Returned {A} a.
Arguments Panicked {A} p.

(** ** part_000, lines 10-19: [invokeOptions] *)

Record invokeOptions : Type := mkInvokeOptions {
  ApprovalPolicy : option string;
  BaseInstructions : option string;
  Config : option (gmap string any);
  Cwd : option string;
  IncludePlanTool : option bool;
  Model : option string;
  Profile : option string;
  Sandbox : option string;
}.

(** The zero value [invokeOptions{}]. *)
Definition invokeOptions_zero : invokeOptions :=
  mkInvokeOptions None None None None None None None None.

(** The type [InvokeOption], a function from a pointer to [invokeOptions] to
    [error]: the structure after the call, and the error returned. *)
Definition InvokeOption : Type := invokeOptions -> invokeOptions * option error.

(** A Go [switch] on a string with literal cases. *)
Definition string_in (s : string) (cases : list string) : bool :=
  existsb (String.eqb s) cases.

(** part_000, lines 27-37. *)
Definition WithApprovalPolicy (approvalPolicy : string) : InvokeOption :=
  fun o =>
    if string_in approvalPolicy ["untrusted"; "on-failure"; "never"]
    then (mkInvokeOptions (Some approvalPolicy) (BaseInstructions o) (Config o)
            (Cwd o) (IncludePlanTool o) (Model o) (Profile o) (Sandbox o), None)
    else (o, Some (errors_New ("invalid approval-policy: " +:+ approvalPolicy))).

(** part_000, lines 41-46. *)
Definition WithBaseInstructions (baseInstructions : string) : InvokeOption :=
  fun o =>
    (mkInvokeOptions (ApprovalPolicy o) (Some baseInstructions) (Config o)
       (Cwd o) (IncludePlanTool o) (Model o) (Profile o) (Sandbox o), None).

(** part_000, lines 49-54.  The argument is a Go map, possibly nil. *)
Definition WithConfig (config : option (gmap string any)) : InvokeOption :=
  fun o =>
    (mkInvokeOptions (ApprovalPolicy o) (BaseInstructions o) config
       (Cwd o) (IncludePlanTool o) (Model o) (Profile o) (Sandbox o), None).

(** part_000, lines 57-62. *)
Definition WithCwd (cwd : string) : InvokeOption :=
  fun o =>
    (mkInvokeOptions (ApprovalPolicy o) (BaseInstructions o) (Config o)
       (Some cwd) (IncludePlanTool o) (Model o) (Profile o) (Sandbox o), None).

(** part_000, lines 65-70. *)
Definition WithIncludePlanTool (includePlanTool : bool) : InvokeOption :=
  fun o =>
    (mkInvokeOptions (ApprovalPolicy o) (BaseInstructions o) (Config o)
       (Cwd o) (Some includePlanTool) (Model o) (Profile o) (Sandbox o), None).

(** part_000, lines 73-78. *)
Definition WithModel (model : string) : InvokeOption :=
  fun o =>
    (mkInvokeOptions (ApprovalPolicy o) (BaseInstructions o) (Config o)
       (Cwd o) (IncludePlanTool o) (Some model) (Profile o) (Sandbox o), None).

(** part_000, lines 81-86. *)
Definition WithProfile (profile : string) : InvokeOption :=
  fun o =>
    (mkInvokeOptions (ApprovalPolicy o) (BaseInstructions o) (Config o)
       (Cwd o) (IncludePlanTool o) (Model o) (Some profile) (Sandbox o), None).

(** part_000, lines 90-100. *)
Definition WithSandbox (sandbox : string) : InvokeOption :=
  fun o =>
    if string_in sandbox ["read-only"; "workspace-write"; "danger-full-access"]
    then (mkInvokeOptions (ApprovalPolicy o) (BaseInstructions o) (Config o)
            (Cwd o) (IncludePlanTool o) (Model o) (Profile o) (Some sandbox), None)
    else (o, Some (errors_New ("invalid sandbox: " +:+ sandbox))).

(** part_000, lines 107-111: the loop over [options].  The structure is
    threaded through the options in slice order; the first non-nil error
    leaves the loop. *)
Fixpoint applyOptions (options : list InvokeOption) (opts : invokeOptions)
  : invokeOptions * option error :=
  match options with
  | [] => (opts, None)
  | opt :: rest =>
      match opt opts with
      | (opts', Some err) => (opts', Some err)
      | (opts', None) => applyOptions rest opts'
      end
  end.

(** ** codex.go: the client and [command] *)

(** An [io.Writer] is known by a name only: the wrapper never writes to it,
    it hands it to the subprocess. *)
Definition Writer : Type := string.

(** codex.go, lines 35-41.  The mutex is in [Module LoginConcurrency]. *)
Record Codex : Type := mkCodex {
  executablePath : string;
  logWriter : option Writer;
  logLevel : string;
}.

Definition CodexOption : Type := Codex -> Codex.

(** codex.go, lines 60-62. *)
Definition SetExecutablePath (path : string) (codex : Codex) : Codex :=
  mkCodex path (logWriter codex) (logLevel codex).

(** codex.go, lines 66-69.  [w] is an interface value: [None] is nil. *)
Definition SetLogger (w : option Writer) (level : string) (codex : Codex) : Codex :=
  mkCodex (executablePath codex) w level.

(** codex.go, lines 19-23 and 27-31. *)
Definition WithExecutablePath (path : string) : CodexOption :=
  SetExecutablePath path.

Definition WithLogger (w : option Writer) (level : string) : CodexOption :=
  SetLogger w level.

(** codex.go, lines 46-56. *)
Definition New (options : list CodexOption) : Codex :=
  foldl (fun codex opt => opt codex) (mkCodex "codex" None "info") options.

(** The fields of [exec.Cmd] the package reads or writes.  [Env = None] is the
    nil slice (the child inherits the parent's environment), [Stderr = None]
    the nil writer, [Dir = ""] the caller's directory. *)
Record Cmd : Type := mkCmd {
  Path : string;
  Args : list string;
  Env : option (list string);
  Dir : string;
  Stderr : option Writer;
}.

(** [exec.CommandContext(ctx, name, arg...)]: [Args] is the name followed by
    the arguments.  [Path] is kept as the name given; the search of the name
    in PATH that the library does is outside the model. *)
Definition exec_CommandContext (name : string) (arg : list string) : Cmd :=
  mkCmd name (name :: arg) None "" None.

(** [fmt.Sprintf("RUST_LOG=codex_core=%s,codex_tui=%s", l, l)]. *)
Definition rust_log (level : string) : string :=
  "RUST_LOG=codex_core=" +:+ level +:+ ",codex_tui=" +:+ level.

(** codex.go, lines 71-83.  [environ] is what [os.Environ()] returns. *)
Definition command (environ : list string) (codex : Codex) (arg : list string)
  : Cmd + error :=
  let cmd := exec_CommandContext (executablePath codex) arg in
  match logWriter codex with
  | Some w =>
      if string_in (logLevel codex) ["error"; "warn"; "info"; "debug"; "trace"; "off"]
      then inl (mkCmd (Path cmd) (Args cmd)
                  (Some (rust_log (logLevel codex) :: environ))
                  (Dir cmd) (Some w))
      else inr (errors_New "invalid log level")
  | None => inl cmd
  end.

(** ** The MCP SDK, as far as [Invoke] uses it *)

(** The interface [mcp.Content]; [Invoke] asserts the dynamic type
    [*mcp.TextContent], every other implementation is [OtherContent]. *)
Inductive Content_ : Type :=
  | TextContent (Text : string)
  | OtherContent.

Record CallToolParams : Type := mkCallToolParams {
  Name : string;
  Arguments : gmap string any;
}.

Record CallToolResult : Type := mkCallToolResult {
  Content : list Content_;
  IsError : bool;
}.

(** ** The outside world and the trace of calls made to it *)

(** [environ] is [os.Environ()]; [run cmd] is [cmd.Run()]; [connect cmd] is
    [client.Connect] over a [CommandTransport] for [cmd], which starts the
    process; [callTool cmd params] is [session.CallTool] on the session that
    [cmd] backs.  Cancellation of the context shows as the errors these
    return. *)
Record World : Type := mkWorld {
  environ : list string;
  run : Cmd -> option error;
  connect : Cmd -> option error;
  callTool : Cmd -> CallToolParams -> CallToolResult + error;
}.

Inductive event : Type :=
  | EvLock
  | EvUnlock
  | EvRun (cmd : Cmd)
  | EvConnect (cmd : Cmd)
  | EvCallTool (params : CallToolParams)
  | EvClose.

(** A computation that records its calls. *)
Definition Trace (A : Type) : Type := list event * A.

#[global] Instance Trace_ret : MRet Trace := fun A a => ([], a).
#[global] Instance Trace_bind : MBind Trace := fun A B k m =>
  let '(t1, a) := m in
  let '(t2, b) := k a in
  ((t1 ++ t2)%list, b).

Definition emit (e : event) : Trace unit := ([e], tt).

(** [defer f()]: [f] runs when the body is left, whatever it produced (a
    return or a panic). *)
Definition defer {A : Type} (f : event) (body : Trace A) : Trace A :=
  r ← body; emit f;; mret r.

(** ** login.go, lines 6-19 *)

Definition Login (w : World) (codex : Codex) (apiKey : string) : Trace (option error) :=
  emit EvLock;;
  defer EvUnlock
    match command (environ w) codex ["login"; "--api-key"; apiKey] with
    | inr err => mret (Some err)
    | inl cmd => emit (EvRun cmd);; mret (run w cmd)
    end.

(** ** part_000, lines 105-176: [Invoke] *)

(** Lines 118-120. *)
Definition invokeCmd (opts : invokeOptions) (cmd : Cmd) : Cmd :=
  match Cwd opts with
  | Some dir => mkCmd (Path cmd) (Args cmd) (Env cmd) dir (Stderr cmd)
  | None => cmd
  end.

(** Lines 129-159: the map literal, then one guarded assignment per field. *)
Definition invokeArguments (prompt : string) (opts : invokeOptions) : gmap string any :=
  let arguments : gmap string any := {[ "prompt" := any_string prompt ]} in
  let arguments :=
    match ApprovalPolicy opts with
    | Some v => <[ "approval-policy" := any_string v ]> arguments
    | None => arguments
    end in
  let arguments :=
    match BaseInstructions opts with
    | Some v => <[ "base-instructions" := any_string v ]> arguments
    | None => arguments
    end in
  let arguments :=
    match Config opts with
    | Some m => <[ "config" := any_map m ]> arguments
    | None => arguments
    end in
  let arguments :=
    match IncludePlanTool opts with
    | Some b => <[ "include-plan-tool" := any_bool b ]> arguments
    | None => arguments
    end in
  let arguments :=
    match Model opts with
    | Some v => <[ "model" := any_string v ]> arguments
    | None => arguments
    end in
  let arguments :=
    match Profile opts with
    | Some v => <[ "profile" := any_string v ]> arguments
    | None => arguments
    end in
  match Sandbox opts with
  | Some v => <[ "sandbox" := any_string v ]> arguments
  | None => arguments
  end.

(** Lines 161-164. *)
Definition invokeParams (prompt : string) (opts : invokeOptions) : CallToolParams :=
  mkCallToolParams "codex" (invokeArguments prompt opts).

(** Lines 170-175: [res.Content[0]] is a checked slice access, the type
    assertion has no comma-ok form; both panic when they fail. *)
Definition invokeResult (res : CallToolResult) : outcome (string * option error) :=
  match Content res !! 0%nat with
  | None => Panicked (index_out_of_range 0 (length (Content res)))
  | Some (TextContent text) =>
      if IsError res
      then Returned ("", Some (errors_New text))
      else Returned (text, None)
  | Some OtherContent => Panicked interface_conversion
  end.

Definition Invoke (w : World) (codex : Codex) (prompt : string)
    (options : list InvokeOption) : Trace (outcome (string * option error)) :=
  match applyOptions options invokeOptions_zero with
  | (_, Some err) => mret (Returned ("", Some err))
  | (opts, None) =>
      match command (environ w) codex ["mcp"] with
      | inr err => mret (Returned ("", Some err))
      | inl cmd =>
          let cmd := invokeCmd opts cmd in
          emit (EvConnect cmd);;
          match connect w cmd with
          | Some err => mret (Returned ("", Some err))
          | None =>
              defer EvClose
                (let params := invokeParams prompt opts in
                 emit (EvCallTool params);;
                 match callTool w cmd params with
                 | inr err => mret (Returned ("", Some err))
                 | inl res => mret (invokeResult res)
                 end)
          end
      end
  end.

(** The structure with its [Cwd] field replaced: used to say that a result
    does not depend on that field. *)
Definition withCwd (cwd : option string) (o : invokeOptions) : invokeOptions :=
  mkInvokeOptions (ApprovalPolicy o) (BaseInstructions o) (Config o) cwd
    (IncludePlanTool o) (Model o) (Profile o) (Sandbox o).

(** ** Concurrent calls of [Login] on one client

    Goroutines calling [Login] on the same client, interleaved.  The mutex is
    [sync.Mutex]: [Lock] goes through only when the mutex is unlocked,
    [Unlock] unlocks it.  [mutex] also remembers which goroutine locked it.
    A goroutine is at one of the program points of login.go. *)
Module LoginConcurrency.

(** Goroutines are numbered. *)
Abbreviation tid := nat.

Inductive pc : Type :=
  | Idle                           (* has not called [Login] *)
  | Locked                         (* past lines 7-8, before line 9 *)
  | Running (cmd : Cmd)            (* inside [cmd.Run()], line 14 *)
  | Returning (r : option error)   (* at a [return], the deferred [Unlock] pending *)
  | Finished (r : option error).   (* [Login] has returned [r] *)

Record state : Type := mkState {
  mutex : option tid;
  pcs : tid -> pc;
}.

Definition init : state := mkState None (fun _ => Idle).

(** Between line 7 and the deferred [Unlock]. *)
Definition in_Login (p : pc) : Prop :=
  match p with
  | Locked | Running _ | Returning _ => True
  | Idle | Finished _ => False
  end.

(** A goroutine may call [Login] when it is in no call. *)
Definition may_call (p : pc) : Prop :=
  match p with
  | Idle | Finished _ => True
  | _ => False
  end.

Section Step.
Context (env : list string) (codex : Codex) (apiKey : tid -> string).

Inductive step : state -> state -> Prop :=
  | step_Lock (t : tid) (s : state) :
      may_call (pcs s t) ->
      mutex s = None ->
      step s (mkState (Some t) (<[t := Locked]> (pcs s)))
  | step_command_error (t : tid) (s : state) (err : error) :
      pcs s t = Locked ->
      command env codex ["login"; "--api-key"; apiKey t] = inr err ->
      step s (mkState (mutex s) (<[t := Returning (Some err)]> (pcs s)))
  | step_command_ok (t : tid) (s : state) (cmd : Cmd) :
      pcs s t = Locked ->
      command env codex ["login"; "--api-key"; apiKey t] = inl cmd ->
      step s (mkState (mutex s) (<[t := Running cmd]> (pcs s)))
  | step_Run_returns (t : tid) (s : state) (cmd : Cmd) (r : option error) :
      pcs s t = Running cmd ->
      step s (mkState (mutex s) (<[t := Returning r]> (pcs s)))
  | step_Unlock (t : tid) (s : state) (r : option error) :
      pcs s t = Returning r ->
      step s (mkState None (<[t := Finished r]> (pcs s))).

Definition reachable (s : state) : Prop := rtc step init s.
End Step.

End LoginConcurrency.

Import LoginConcurrency.

(** The goroutine inside [Login] is the one that locked the mutex. *)
Definition lock_inv (s : state) : Prop :=
  forall t : tid, in_Login (pcs s t) <-> mutex s = Some t.

(** The goroutine [t0] can run to the return of its [Login]; this unlocks the
    mutex and moves no other goroutine. *)
Definition finishes (env : list string) (codex : Codex) (apiKey : tid -> string)
    (s : state) (t0 : tid) : Prop :=
  exists (s' : state) (r : option error),
    rtc (step env codex apiKey) s s' /\ mutex s' = None /\
    pcs s' t0 = Finished r /\
    forall t : tid, t ≠ t0 -> pcs s' t = pcs s t.

(** ** Concrete clients and worlds used to exercise the statements *)

(** Every call succeeds; the tool answers one text entry followed by an entry
    of another kind. *)
Definition world_ok : World :=
  mkWorld ["HOME=/root"; "PATH=/usr/bin"]
    (fun _ => None) (fun _ => None)
    (fun _ _ => inl (mkCallToolResult [TextContent "ok"; OtherContent] false)).

(** The tool reports a failure, with text [boom]. *)
Definition world_boom : World :=
  mkWorld ["HOME=/root"; "PATH=/usr/bin"]
    (fun _ => None) (fun _ => None)
    (fun _ _ => inl (mkCallToolResult [TextContent "boom"] true)).

(** The tool answers with no content at all. *)
Definition world_empty : World :=
  mkWorld ["HOME=/root"; "PATH=/usr/bin"]
    (fun _ => None) (fun _ => None)
    (fun _ _ => inl (mkCallToolResult [] false)).

(** A client that logs to a sink with a level outside the enumeration. *)
Definition codex_verbose : Codex := New [WithLogger (Some "os.Stderr") "verbose"].

(** A client that logs at level [debug]. *)
Definition codex_debug : Codex := New [WithLogger (Some "os.Stderr") "debug"].

(** Goroutine 0 has locked the mutex and started the login subprocess. *)
Definition state_running : state :=
  mkState (Some 0)
    (<[0 := Running (mkCmd "codex" ["codex"; "login"; "--api-key"; "sk-key"]
                        None "" None)]>
       (<[0 := Locked]> (pcs init))).

(** The keys [Invoke] may send. *)
Definition argument_keys : list string :=
  ["prompt"; "approval-policy"; "base-instructions"; "config";
   "include-plan-tool"; "model"; "profile"; "sandbox"].

(** An option that leaves the field [f] of the structure as it found it,
    whether it succeeds or not. *)
Definition keeps {A : Type} (f : invokeOptions -> A) (opt : InvokeOption) : Prop :=
  forall o : invokeOptions, f (opt o).1 = f o.

(** * Properties *)

(** ** A [switch] over string literals *)

Lemma string_in_true (s : string) (cases : list string) :
  string_in s cases = true <-> s ∈ cases.
Proof.
  unfold string_in. rewrite existsb_exists, list_elem_of_In. split.
  - intros (c & Hc & Heq). apply String.eqb_eq in Heq. by subst.
  - intros Hs. exists s. split; [done | apply String.eqb_refl].
Qed.

Lemma string_in_false (s : string) (cases : list string) :
  string_in s cases = false <-> s ∉ cases.
Proof.
  rewrite <- string_in_true. destruct (string_in s cases); split; done.
Qed.

Ltac switch_on H :=
  first [ apply string_in_true in H | apply string_in_false in H ]; rewrite H.

(** ** The option builder *)

(** C1.  [WithApprovalPolicy v] on a value outside untrusted, on-failure,
    never returns the error "invalid approval-policy: v" and leaves the
    options structure as it was; on a value of the set it returns no error and
    stores [v] in [ApprovalPolicy], touching no other field.  [WithSandbox]
    does the same for read-only, workspace-write, danger-full-access, with the
    message "invalid sandbox: v" and the field [Sandbox]. *)
Theorem With_enum_option_validates (v : string) (o : invokeOptions) :
  (v ∉ ["untrusted"; "on-failure"; "never"] ->
     WithApprovalPolicy v o
     = (o, Some (errors_New ("invalid approval-policy: " +:+ v)))) /\
  (v ∈ ["untrusted"; "on-failure"; "never"] ->
     WithApprovalPolicy v o
     = (mkInvokeOptions (Some v) (BaseInstructions o) (Config o) (Cwd o)
          (IncludePlanTool o) (Model o) (Profile o) (Sandbox o), None)) /\
  (v ∉ ["read-only"; "workspace-write"; "danger-full-access"] ->
     WithSandbox v o = (o, Some (errors_New ("invalid sandbox: " +:+ v)))) /\
  (v ∈ ["read-only"; "workspace-write"; "danger-full-access"] ->
     WithSandbox v o
     = (mkInvokeOptions (ApprovalPolicy o) (BaseInstructions o) (Config o) (Cwd o)
          (IncludePlanTool o) (Model o) (Profile o) (Some v), None)).
Proof.
  unfold WithApprovalPolicy, WithSandbox.
  repeat split; intros H; by switch_on H.
Qed.

Lemma With_enum_option_validates_witness :
  WithApprovalPolicy "sometimes" invokeOptions_zero
  = (invokeOptions_zero, Some (errors_New "invalid approval-policy: sometimes")) /\
  WithApprovalPolicy "on-failure" invokeOptions_zero
  = (mkInvokeOptions (Some "on-failure") None None None None None None None, None) /\
  WithSandbox "" invokeOptions_zero
  = (invokeOptions_zero, Some (errors_New "invalid sandbox: ")) /\
  WithSandbox "read-only" invokeOptions_zero
  = (mkInvokeOptions None None None None None None None (Some "read-only"), None).
Proof.
  destruct (With_enum_option_validates "sometimes" invokeOptions_zero) as (H1 & _).
  destruct (With_enum_option_validates "on-failure" invokeOptions_zero) as (_ & H2 & _).
  destruct (With_enum_option_validates "" invokeOptions_zero) as (_ & _ & H3 & _).
  destruct (With_enum_option_validates "read-only" invokeOptions_zero) as (_ & _ & _ & H4).
  split; [apply H1 | split; [apply H2 | split; [apply H3 | apply H4]]];
    first [apply string_in_false | apply string_in_true]; reflexivity.
Defined.

(** ** The loop over the options *)

Lemma applyOptions_app (pre post : list InvokeOption) (o : invokeOptions) :
  applyOptions (pre ++ post)%list o =
  match applyOptions pre o with
  | (o', None) => applyOptions post o'
  | (o', Some err) => (o', Some err)
  end.
Proof.
  revert o. induction pre as [|opt pre IH]; intros o; simpl; [done|].
  destruct (opt o) as [o' [err|]]; [done | apply IH].
Qed.

(** When no option fails, the loop is the left fold of the options over the
    structure, in slice order. *)
Lemma applyOptions_foldl (options : list InvokeOption) (o o' : invokeOptions) :
  applyOptions options o = (o', None) ->
  o' = foldl (fun acc opt => (opt acc).1) o options.
Proof.
  revert o. induction options as [|opt options IH]; intros o; simpl.
  - congruence.
  - destruct (opt o) as [o1 [err|]] eqn:E; [done|].
    intros H. by apply IH in H.
Qed.

(** ** The paths through [Invoke] *)

Section InvokePaths.
Context (w : World) (codex : Codex) (prompt : string).
Context (options : list InvokeOption).

(** The path on which the tool call is answered. *)
Lemma Invoke_answered (opts : invokeOptions) (cmd : Cmd) (res : CallToolResult) :
  applyOptions options invokeOptions_zero = (opts, None) ->
  command (environ w) codex ["mcp"] = inl cmd ->
  connect w (invokeCmd opts cmd) = None ->
  callTool w (invokeCmd opts cmd) (invokeParams prompt opts) = inl res ->
  Invoke w codex prompt options
  = ([EvConnect (invokeCmd opts cmd); EvCallTool (invokeParams prompt opts); EvClose],
     invokeResult res).
Proof.
  intros Hopts Hcmd Hconn Hcall. unfold Invoke.
  rewrite Hopts, Hcmd. cbn. rewrite Hconn. cbn. by rewrite Hcall.
Qed.

(** A tool call in the trace was made with the parameters built from the
    accumulated options. *)
Lemma Invoke_calls (params : CallToolParams) :
  EvCallTool params ∈ (Invoke w codex prompt options).1 ->
  exists opts, applyOptions options invokeOptions_zero = (opts, None) /\
               params = invokeParams prompt opts.
Proof.
  unfold Invoke.
  destruct (applyOptions options invokeOptions_zero) as [opts [err|]]; cbn.
  { by intros ?%elem_of_nil. }
  destruct (command (environ w) codex ["mcp"]) as [cmd|err]; cbn.
  2: { by intros ?%elem_of_nil. }
  destruct (connect w (invokeCmd opts cmd)) as [err|]; cbn.
  { intros [?|?%elem_of_nil]%elem_of_cons; done. }
  destruct (callTool w (invokeCmd opts cmd) (invokeParams prompt opts)); cbn;
    intros [?|[?|[?|?%elem_of_nil]%elem_of_cons]%elem_of_cons]%elem_of_cons;
    try done; exists opts; split; congruence.
Qed.

(** A connection in the trace was opened over the command that [command]
    built for [mcp], after the assignment of lines 118-120. *)
Lemma Invoke_connects (cmd' : Cmd) :
  EvConnect cmd' ∈ (Invoke w codex prompt options).1 ->
  exists opts cmd,
    applyOptions options invokeOptions_zero = (opts, None) /\
    command (environ w) codex ["mcp"] = inl cmd /\
    cmd' = invokeCmd opts cmd.
Proof.
  unfold Invoke.
  destruct (applyOptions options invokeOptions_zero) as [opts [err|]]; cbn.
  { by intros ?%elem_of_nil. }
  destruct (command (environ w) codex ["mcp"]) as [cmd|err]; cbn.
  2: { by intros ?%elem_of_nil. }
  destruct (connect w (invokeCmd opts cmd)) as [err|]; cbn.
  { intros [?|?%elem_of_nil]%elem_of_cons; [|done].
    exists opts, cmd. repeat split; congruence. }
  destruct (callTool w (invokeCmd opts cmd) (invokeParams prompt opts)); cbn;
    intros [?|[?|[?|?%elem_of_nil]%elem_of_cons]%elem_of_cons]%elem_of_cons;
    try done; exists opts, cmd; repeat split; congruence.
Qed.
End InvokePaths.

(** ** The argument mapping *)

(** One guarded assignment [if p != nil { arguments[k'] = f v }], read at the
    key it writes and at any other key. *)
Lemma lookup_guarded_insert_eq {A : Type} (f : A -> any) (o : option A)
    (k : string) (m : gmap string any) :
  match o with Some v => <[k := f v]> m | None => m end !! k
  = match o with Some v => Some (f v) | None => m !! k end.
Proof. destruct o; [apply lookup_insert_eq | done]. Qed.

Lemma lookup_guarded_insert_ne {A : Type} (f : A -> any) (o : option A)
    (k k' : string) (m : gmap string any) :
  k' ≠ k ->
  match o with Some v => <[k' := f v]> m | None => m end !! k = m !! k.
Proof. intros Hne. destruct o; [by apply lookup_insert_ne | done]. Qed.

Ltac read_arguments :=
  unfold invokeArguments; cbv zeta;
  repeat first
    [ rewrite lookup_guarded_insert_eq
    | rewrite lookup_guarded_insert_ne by congruence
    | rewrite lookup_singleton_eq
    | rewrite lookup_singleton_ne by congruence ].

Lemma invokeArguments_lookup (prompt : string) (opts : invokeOptions) :
  invokeArguments prompt opts !! "prompt" = Some (any_string prompt) /\
  invokeArguments prompt opts !! "approval-policy" = any_string <$> ApprovalPolicy opts /\
  invokeArguments prompt opts !! "base-instructions" = any_string <$> BaseInstructions opts /\
  invokeArguments prompt opts !! "config" = any_map <$> Config opts /\
  invokeArguments prompt opts !! "include-plan-tool" = any_bool <$> IncludePlanTool opts /\
  invokeArguments prompt opts !! "model" = any_string <$> Model opts /\
  invokeArguments prompt opts !! "profile" = any_string <$> Profile opts /\
  invokeArguments prompt opts !! "sandbox" = any_string <$> Sandbox opts.
Proof.
  repeat split; read_arguments;
    by repeat match goal with |- context [match ?o with _ => _ end] => destruct o end.
Qed.

Lemma invokeArguments_other_key (prompt : string) (opts : invokeOptions) (k : string) :
  k ∉ argument_keys -> invokeArguments prompt opts !! k = None.
Proof.
  unfold argument_keys. rewrite !not_elem_of_cons. intros (?&?&?&?&?&?&?&?&_).
  by read_arguments.
Qed.



(** The mapping for three options of the package, and for a nil config map,
    which is the same as no config at all. *)
Example Invoke_arguments_three_options :
  (Invoke world_ok (New []) "hi"
     [WithModel "o3"; WithCwd "/tmp"; WithSandbox "read-only"]).1
  = [EvConnect (mkCmd "codex" ["codex"; "mcp"] None "/tmp" None);
     EvCallTool
       (mkCallToolParams "codex"
          (<["sandbox" := any_string "read-only"]>
             (<["model" := any_string "o3"]> {["prompt" := any_string "hi"]})));
     EvClose].
Proof. reflexivity. Qed.

Example Invoke_arguments_nil_config :
  (Invoke world_ok (New []) "hi" [WithConfig None]).1
  = [EvConnect (mkCmd "codex" ["codex"; "mcp"] None "" None);
     EvCallTool (mkCallToolParams "codex" {["prompt" := any_string "hi"]});
     EvClose].
Proof. reflexivity. Qed.

(** ** The response *)

(** C3.  When the tool call is answered and the first content entry is a text
    entry, [Invoke] returns an error carrying exactly that text if the
    response is flagged [IsError], and returns that text with a nil error
    otherwise.  The entries after the first play no part: two responses with
    the same first entry and the same flag give the same result. *)
Theorem Invoke_reads_first_entry (w : World) (codex : Codex) (prompt : string)
    (options : list InvokeOption) (opts : invokeOptions) (cmd : Cmd)
    (res : CallToolResult) (text : string) (rest : list Content_) :
  applyOptions options invokeOptions_zero = (opts, None) ->
  command (environ w) codex ["mcp"] = inl cmd ->
  connect w (invokeCmd opts cmd) = None ->
  callTool w (invokeCmd opts cmd) (invokeParams prompt opts) = inl res ->
  Content res = TextContent text :: rest ->
  (IsError res = true ->
     exists err, (Invoke w codex prompt options).2 = Returned ("", Some err) /\
                 Error_ err = text) /\
  (IsError res = false ->
     (Invoke w codex prompt options).2 = Returned (text, None)) /\
  (forall rest' : list Content_,
     (Invoke w codex prompt options).2
     = invokeResult (mkCallToolResult (TextContent text :: rest') (IsError res))).
Proof.
  intros Hopts Hcmd Hconn Hcall Hcontent.
  rewrite (Invoke_answered w codex prompt options opts cmd res) by done. cbn.
  unfold invokeResult. rewrite Hcontent. cbn.
  repeat split.
  - intros ->. by exists (errors_New text).
  - by intros ->.
Qed.

Lemma Invoke_reads_first_entry_witness :
  (exists err, (Invoke world_boom (New []) "hi" []).2 = Returned ("", Some err) /\
               Error_ err = "boom") /\
  (Invoke world_ok (New []) "hi" []).2 = Returned ("ok", None).
Proof.
  split.
  - refine (proj1 (Invoke_reads_first_entry world_boom (New []) "hi" []
                     invokeOptions_zero (mkCmd "codex" ["codex"; "mcp"] None "" None)
                     (mkCallToolResult [TextContent "boom"] true) "boom" []
                     _ _ _ _ _) _); reflexivity.
  - refine (proj1 (proj2 (Invoke_reads_first_entry world_ok (New []) "hi" []
                     invokeOptions_zero (mkCmd "codex" ["codex"; "mcp"] None "" None)
                     (mkCallToolResult [TextContent "ok"; OtherContent] false) "ok"
                     [OtherContent] _ _ _ _ _)) _); reflexivity.
Defined.

(** C8.  When the tool call is answered with an empty content list, [Invoke]
    does not return: the access [res.Content[0]] is out of range and the call
    panics (the deferred close still runs).  Reading index 0 of the content
    list yields an entry exactly when the list is not empty. *)
Theorem Invoke_empty_content_panics (w : World) (codex : Codex) (prompt : string)
    (options : list InvokeOption) (opts : invokeOptions) (cmd : Cmd)
    (res : CallToolResult) :
  applyOptions options invokeOptions_zero = (opts, None) ->
  command (environ w) codex ["mcp"] = inl cmd ->
  connect w (invokeCmd opts cmd) = None ->
  callTool w (invokeCmd opts cmd) (invokeParams prompt opts) = inl res ->
  Content res = [] ->
  Invoke w codex prompt options
  = ([EvConnect (invokeCmd opts cmd); EvCallTool (invokeParams prompt opts); EvClose],
     Panicked (index_out_of_range 0 0)) /\
  (forall res' : CallToolResult,
     is_Some (Content res' !! 0%nat) <-> Content res' ≠ []) /\
  (forall res' : CallToolResult,
     (exists r, invokeResult res' = Returned r) -> Content res' ≠ []).
Proof.
  intros Hopts Hcmd Hconn Hcall Hcontent.
  rewrite (Invoke_answered w codex prompt options opts cmd res) by done.
  unfold invokeResult. rewrite Hcontent. split; [done|]. split.
  - intros res'. destruct (Content res'); cbn; split; intros H;
      try done; try (by destruct H); by eexists.
  - intros res' [r Hr]. unfold invokeResult in Hr. by destruct (Content res').
Qed.

Lemma Invoke_empty_content_panics_witness :
  Invoke world_empty (New []) "hi" []
  = ([EvConnect (mkCmd "codex" ["codex"; "mcp"] None "" None);
      EvCallTool (invokeParams "hi" invokeOptions_zero); EvClose],
     Panicked (index_out_of_range 0 0)).
Proof.
  refine (proj1 (Invoke_empty_content_panics world_empty (New []) "hi" []
                   invokeOptions_zero (mkCmd "codex" ["codex"; "mcp"] None "" None)
                   (mkCallToolResult [] false) _ _ _ _ _)); reflexivity.
Defined.

(** ** A failing option *)

(** C4.  The options are applied in slice order, each to the structure its
    predecessors left.  If the options before [opt] succeed and [opt] returns
    [err], then whatever follows [opt] the loop stops at [opt] with the
    structure [opt] left, and [Invoke] returns [err] itself with an empty
    result string and an empty trace, for every client and every world: no
    command is asked for, nothing is spawned. *)
Theorem Invoke_first_failing_option (w : World) (codex : Codex) (prompt : string)
    (pre post : list InvokeOption) (opt : InvokeOption)
    (opts opts' : invokeOptions) (err : error) :
  applyOptions pre invokeOptions_zero = (opts, None) ->
  opt opts = (opts', Some err) ->
  opts = foldl (fun acc o => (o acc).1) invokeOptions_zero pre /\
  applyOptions (pre ++ opt :: post)%list invokeOptions_zero = (opts', Some err) /\
  Invoke w codex prompt (pre ++ opt :: post)%list = ([], Returned ("", Some err)).
Proof.
  intros Hpre Hopt.
  assert (applyOptions (pre ++ opt :: post)%list invokeOptions_zero
          = (opts', Some err)) as Hall.
  { rewrite applyOptions_app, Hpre. cbn. by rewrite Hopt. }
  split; [by apply applyOptions_foldl|]. split; [done|].
  unfold Invoke. by rewrite Hall.
Qed.

Lemma Invoke_first_failing_option_witness :
  Invoke world_ok codex_debug "hi"
    [WithModel "o3"; WithApprovalPolicy "always"; WithSandbox "nope"]
  = ([], Returned ("", Some (errors_New "invalid approval-policy: always"))).
Proof.
  refine (proj2 (proj2 (Invoke_first_failing_option world_ok codex_debug "hi"
            [WithModel "o3"] [WithSandbox "nope"] (WithApprovalPolicy "always")
            (mkInvokeOptions None None None None None (Some "o3") None None)
            (mkInvokeOptions None None None None None (Some "o3") None None)
            (errors_New "invalid approval-policy: always") _ _))); reflexivity.
Defined.

(** ** The working directory *)

Lemma command_Dir (env : list string) (codex : Codex) (arg : list string) (cmd : Cmd) :
  command env codex arg = inl cmd -> Dir cmd = "".
Proof.
  unfold command. destruct (logWriter codex); [|by intros [= <-]].
  destruct (string_in _ _); [by intros [= <-] | done].
Qed.

(** C5.  In every run of [Invoke]: the mapping of a tool call is the same
    whatever the [Cwd] field holds, so the directory reaches it under no key,
    and it has no key [cwd]; the command handed to the transport has [Dir]
    equal to the supplied directory when [Cwd] is set and equal to the [Dir]
    that [command] produced, the empty default, when it is not; its other
    fields are those [command] produced. *)
Theorem Invoke_cwd_sets_Dir_only (w : World) (codex : Codex) (prompt : string)
    (options : list InvokeOption) :
  (forall params : CallToolParams,
     EvCallTool params ∈ (Invoke w codex prompt options).1 ->
     exists opts : invokeOptions,
       applyOptions options invokeOptions_zero = (opts, None) /\
       (forall cwd : option string,
          Arguments params = invokeArguments prompt (withCwd cwd opts)) /\
       Arguments params !! "cwd" = None) /\
  (forall cmd' : Cmd,
     EvConnect cmd' ∈ (Invoke w codex prompt options).1 ->
     exists (opts : invokeOptions) (cmd : Cmd),
       applyOptions options invokeOptions_zero = (opts, None) /\
       command (environ w) codex ["mcp"] = inl cmd /\
       Dir cmd = "" /\
       Dir cmd' = match Cwd opts with Some dir => dir | None => "" end /\
       Path cmd' = Path cmd /\ Args cmd' = Args cmd /\
       Env cmd' = Env cmd /\ Stderr cmd' = Stderr cmd).
Proof.
  split.
  - intros params (opts & Hopts & ->)%Invoke_calls. exists opts.
    split; [done|]. split; [done|]. cbn.
    apply invokeArguments_other_key. unfold argument_keys.
    rewrite !not_elem_of_cons. repeat split; try done. apply not_elem_of_nil.
  - intros cmd' (opts & cmd & Hopts & Hcmd & ->)%Invoke_connects.
    exists opts, cmd. split; [done|]. split; [done|].
    pose proof (command_Dir _ _ _ _ Hcmd) as HDir. split; [done|].
    unfold invokeCmd. by destruct (Cwd opts).
Qed.

Lemma Invoke_cwd_sets_Dir_only_witness :
  exists (opts : invokeOptions) (cmd : Cmd),
    applyOptions [WithCwd "/tmp"; WithModel "o3"] invokeOptions_zero = (opts, None) /\
    command (environ world_ok) codex_debug ["mcp"] = inl cmd /\
    Dir cmd = "" /\
    Dir (mkCmd "codex" ["codex"; "mcp"]
           (Some ["RUST_LOG=codex_core=debug,codex_tui=debug"; "HOME=/root"; "PATH=/usr/bin"])
           "/tmp" (Some "os.Stderr"))
    = match Cwd opts with Some dir => dir | None => "" end /\
    "codex" = Path cmd /\ ["codex"; "mcp"] = Args cmd /\
    Some ["RUST_LOG=codex_core=debug,codex_tui=debug"; "HOME=/root"; "PATH=/usr/bin"]
    = Env cmd /\
    Some "os.Stderr" = Stderr cmd.
Proof.
  apply (proj2 (Invoke_cwd_sets_Dir_only world_ok codex_debug "hi"
                  [WithCwd "/tmp"; WithModel "o3"])
           (mkCmd "codex" ["codex"; "mcp"]
              (Some ["RUST_LOG=codex_core=debug,codex_tui=debug"; "HOME=/root"; "PATH=/usr/bin"])
              "/tmp" (Some "os.Stderr"))).
  apply list_elem_of_here.
Defined.

(** ** Logging *)

(** C7.  With a log sink and a level of the enumeration, [command] succeeds;
    the command's [Stderr] is the sink and its [Env] is the entry
    RUST_LOG=codex_core=L,codex_tui=L followed by the inherited environment,
    in its order, so every inherited variable is in it. *)
Theorem command_with_logger (env : list string) (codex : Codex) (arg : list string)
    (sink : Writer) :
  logWriter codex = Some sink ->
  logLevel codex ∈ ["error"; "warn"; "info"; "debug"; "trace"; "off"] ->
  exists cmd : Cmd,
    command env codex arg = inl cmd /\
    Stderr cmd = Some sink /\
    Env cmd
    = Some (("RUST_LOG=codex_core=" +:+ logLevel codex +:+ ",codex_tui=" +:+ logLevel codex)
              :: env) /\
    (forall v : string, v ∈ env -> exists e, Env cmd = Some e /\ v ∈ e) /\
    Path cmd = executablePath codex /\
    Args cmd = executablePath codex :: arg /\
    Dir cmd = "".
Proof.
  intros Hsink Hlevel. unfold command. rewrite Hsink. switch_on Hlevel.
  eexists. split; [done|]. cbn. repeat split.
  intros v Hv. eexists. split; [done|]. by apply list_elem_of_further.
Qed.

Lemma command_with_logger_witness :
  exists cmd : Cmd,
    command ["HOME=/root"] codex_debug ["mcp"] = inl cmd /\
    Stderr cmd = Some "os.Stderr" /\
    Env cmd = Some ["RUST_LOG=codex_core=debug,codex_tui=debug"; "HOME=/root"] /\
    (forall v : string, v ∈ ["HOME=/root"] -> exists e, Env cmd = Some e /\ v ∈ e) /\
    Path cmd = "codex" /\
    Args cmd = ["codex"; "mcp"] /\
    Dir cmd = "".
Proof.
  apply (command_with_logger ["HOME=/root"] codex_debug ["mcp"] "os.Stderr").
  - reflexivity.
  - apply string_in_true. reflexivity.
Defined.




(** C10.  On a client without a log sink, whatever its level string,
    [command] succeeds with the command [exec.CommandContext] built, its
    [Env] and [Stderr] nil; [Login] runs that command and returns what the
    run returns; [Invoke] returns the error of its first failing option, or
    else goes on to connect over that command. *)
Theorem command_without_logger (path level : string) :
  let codex := mkCodex path None level in
  (forall (env arg : list string),
     command env codex arg = inl (mkCmd path (path :: arg) None "" None)) /\
  (forall (w : World) (apiKey : string),
     let cmd := mkCmd path [path; "login"; "--api-key"; apiKey] None "" None in
     Login w codex apiKey = ([EvLock; EvRun cmd; EvUnlock], run w cmd)) /\
  (forall (w : World) (prompt : string) (options : list InvokeOption)
          (opts : invokeOptions) (err : error),
     applyOptions options invokeOptions_zero = (opts, Some err) ->
     Invoke w codex prompt options = ([], Returned ("", Some err))) /\
  (forall (w : World) (prompt : string) (options : list InvokeOption)
          (opts : invokeOptions),
     applyOptions options invokeOptions_zero = (opts, None) ->
     exists rest r,
       Invoke w codex prompt options
       = (EvConnect (invokeCmd opts (mkCmd path [path; "mcp"] None "" None)) :: rest, r)).
Proof.
  cbn. split; [done|]. split; [done|]. split.
  - intros w prompt options opts err Hopts. unfold Invoke. by rewrite Hopts.
  - intros w prompt options opts Hopts. unfold Invoke. rewrite Hopts. cbn.
    destruct (connect w _); cbn; [by eexists _, _|].
    destruct (callTool w _ _); cbn; by eexists _, _.
Qed.

Lemma command_without_logger_witness :
  command ["HOME=/root"] (mkCodex "codex" None "verbose") ["mcp"]
  = inl (mkCmd "codex" ["codex"; "mcp"] None "" None) /\
  exists rest r,
    Invoke world_ok (mkCodex "codex" None "verbose") "hi" [WithCwd "/tmp"]
    = (EvConnect (mkCmd "codex" ["codex"; "mcp"] None "/tmp" None) :: rest, r).
Proof.
  pose proof (command_without_logger "codex" "verbose") as (Hcmd & _ & _ & HInvoke).
  split; [apply Hcmd|].
  apply (HInvoke world_ok "hi" [WithCwd "/tmp"]
           (mkInvokeOptions None None None (Some "/tmp") None None None None)).
  reflexivity.
Defined.

Section LoginMutex.
Context (env : list string) (codex : Codex) (apiKey : tid -> string).

Local Abbreviation step := (step env codex apiKey).
Local Abbreviation reachable := (reachable env codex apiKey).

Lemma lock_inv_init : lock_inv init.
Proof. intros t. cbn. split; [done | discriminate]. Qed.

(** Reading the program point of [t'] after goroutine [t] moved. *)
Ltac goroutine_cases t t' :=
  destruct (decide (t = t')) as [<-|?];
  [ rewrite ?fn_lookup_insert in *
  | rewrite ?fn_lookup_insert_ne in * by done ].

Lemma lock_inv_step (s s' : state) : lock_inv s -> step s s' -> lock_inv s'.
Proof.
  intros Hinv Hstep t'.
  destruct Hstep as [t s Hcall Hfree | t s err Hpc _ | t s cmd Hpc _
                    | t s cmd r Hpc | t s r Hpc]; cbn; goroutine_cases t t';
    try apply Hinv; try (by rewrite <- (Hinv t), Hpc); try done.
  - rewrite (Hinv t'), Hfree. split; [done | congruence].
  - split; [|done]. intros Hin%Hinv.
    assert (in_Login (pcs s t)) as Ht%Hinv by (by rewrite Hpc). congruence.
Qed.

Lemma lock_inv_reachable (s : state) : reachable s -> lock_inv s.
Proof.
  intros Hreach.
  refine (rtc_ind_r lock_inv init lock_inv_init _ s Hreach).
  intros s1 s2 _ Hstep IH. by eapply lock_inv_step.
Qed.

(** A goroutine inside [Login] is never stuck: its next step is enabled. *)
Lemma in_Login_progress (s : state) (t : tid) :
  in_Login (pcs s t) -> exists s', step s s'.
Proof.
  destruct (pcs s t) as [| |cmd|r|r] eqn:Hpc; try done; intros _.
  - destruct (command env codex ["login"; "--api-key"; apiKey t]) as [cmd|err] eqn:Hcmd.
    + eexists. by eapply step_command_ok.
    + eexists. by eapply step_command_error.
  - eexists. by eapply (step_Run_returns _ _ _ t s cmd None).
  - eexists. by eapply step_Unlock.
Qed.

(** A goroutine that runs [Login] with no other goroutine moving finishes
    with the result [Login] computes in the world [w], the mutex unlocked. *)
Lemma Login_alone (w : World) (t : tid) :
  env = environ w ->
  exists s : state,
    reachable s /\ mutex s = None /\
    pcs s t = Finished (Login w codex (apiKey t)).2.
Proof.
  intros ->. unfold Login.
  assert (LoginConcurrency.reachable (environ w) codex apiKey
            (mkState (Some t) (<[t := Locked]> (pcs init)))) as Hlocked.
  { eapply rtc_once, step_Lock; done. }
  destruct (command (environ w) codex ["login"; "--api-key"; apiKey t])
    as [cmd|err] eqn:Hcmd; cbn.
  - eexists. split; [|split].
    + eapply rtc_r; [eapply rtc_r; [eapply rtc_r; [exact Hlocked|]|]|].
      * eapply (step_command_ok _ _ _ t); [apply fn_lookup_insert | exact Hcmd].
      * eapply (step_Run_returns _ _ _ t _ cmd (run w cmd)). apply fn_lookup_insert.
      * eapply (step_Unlock _ _ _ t). apply fn_lookup_insert.
    + done.
    + cbn. by rewrite fn_lookup_insert.
  - eexists. split; [|split].
    + eapply rtc_r; [eapply rtc_r; [exact Hlocked|]|].
      * eapply (step_command_error _ _ _ t); [apply fn_lookup_insert | exact Hcmd].
      * eapply (step_Unlock _ _ _ t). apply fn_lookup_insert.
    + done.
    + cbn. by rewrite fn_lookup_insert.
Qed.

End LoginMutex.


(** * Further properties of the package *)

(** ** The client: [New] and its setters *)

(** X1.  [New] starts from the path [codex], no sink and the level [info] and
    applies its options in slice order.  The path of the client is the one of
    the last option that sets it, the sink and level those of the last
    [WithLogger], when the options after it leave these fields alone; with no
    such option the defaults stay.  The setters called on a built client act
    as the same option appended to [New]'s list. *)
Theorem New_last_setting_wins (pre post : list CodexOption) (p : string)
    (sink : option Writer) (level : string) :
  (Forall (fun opt : CodexOption =>
             forall c, executablePath (opt c) = executablePath c) post ->
   executablePath (New (pre ++ WithExecutablePath p :: post)%list) = p) /\
  (Forall (fun opt : CodexOption =>
             forall c, logWriter (opt c) = logWriter c /\ logLevel (opt c) = logLevel c)
          post ->
   logWriter (New (pre ++ WithLogger sink level :: post)%list) = sink /\
   logLevel (New (pre ++ WithLogger sink level :: post)%list) = level) /\
  (Forall (fun opt : CodexOption =>
             forall c, executablePath (opt c) = executablePath c) post ->
   executablePath (New post) = "codex") /\
  (Forall (fun opt : CodexOption =>
             forall c, logWriter (opt c) = logWriter c /\ logLevel (opt c) = logLevel c)
          post ->
   logWriter (New post) = None /\ logLevel (New post) = "info") /\
  SetExecutablePath p (New pre) = New (pre ++ [WithExecutablePath p])%list /\
  SetLogger sink level (New pre) = New (pre ++ [WithLogger sink level])%list.
Proof.
  assert (forall (A : Type) (f : Codex -> A) (l : list CodexOption) (c : Codex),
            Forall (fun opt : CodexOption => forall c, f (opt c) = f c) l ->
            f (foldl (fun codex opt => opt codex) c l) = f c) as Hkeep.
  { intros A f l. induction l as [|opt l IH]; intros c Hl; [done|].
    apply Forall_cons in Hl as [Hopt Hl]. cbn. by rewrite IH, Hopt. }
  assert (forall l : list CodexOption,
            Forall (fun opt : CodexOption =>
                      forall c, logWriter (opt c) = logWriter c /\
                                logLevel (opt c) = logLevel c) l ->
            Forall (fun opt : CodexOption => forall c, logWriter (opt c) = logWriter c) l /\
            Forall (fun opt : CodexOption => forall c, logLevel (opt c) = logLevel c) l)
    as Hboth.
  { intros l Hl. split; (eapply Forall_impl; [exact Hl|]); intros opt H c; apply H. }
  unfold New. split_and!.
  - intros Hpost. rewrite foldl_app. cbn. by rewrite (Hkeep _ executablePath).
  - intros [Hw Hl]%Hboth. rewrite foldl_app. cbn.
    by rewrite (Hkeep _ logWriter), (Hkeep _ logLevel).
  - intros Hpost. by rewrite (Hkeep _ executablePath).
  - intros [Hw Hl]%Hboth. by rewrite (Hkeep _ logWriter), (Hkeep _ logLevel).
  - by rewrite foldl_app.
  - by rewrite foldl_app.
Qed.

Lemma New_last_setting_wins_witness :
  executablePath
    (New [WithExecutablePath "/opt/a"; WithExecutablePath "/opt/b";
          WithLogger (Some "os.Stderr") "trace"]) = "/opt/b" /\
  logWriter (New [WithLogger (Some "os.Stderr") "trace"; WithLogger None "off";
                  WithExecutablePath "/opt/a"]) = None.
Proof.
  split.
  - apply (proj1 (New_last_setting_wins [WithExecutablePath "/opt/a"]
                    [WithLogger (Some "os.Stderr") "trace"] "/opt/b" None "")).
    repeat constructor.
  - apply (proj1 (proj2 (New_last_setting_wins [WithLogger (Some "os.Stderr") "trace"]
                    [WithExecutablePath "/opt/a"] "" None "off"))).
    repeat constructor.
Defined.

(** ** [command] *)



(** ** [Login] *)

(** X3.  [Login] has two paths.  Either [command] fails: the error is
    returned and nothing ran between taking and releasing the lock.  Or the
    command [executable login --api-key KEY] is run once, between [Lock] and
    [Unlock], and [Login] returns what the run returned, nil on success. *)
Theorem Login_paths (w : World) (codex : Codex) (apiKey : string) :
  (exists err : error,
     command (environ w) codex ["login"; "--api-key"; apiKey] = inr err /\
     Login w codex apiKey = ([EvLock; EvUnlock], Some err)) \/
  (exists cmd : Cmd,
     command (environ w) codex ["login"; "--api-key"; apiKey] = inl cmd /\
     Args cmd = [executablePath codex; "login"; "--api-key"; apiKey] /\
     Dir cmd = "" /\
     Login w codex apiKey = ([EvLock; EvRun cmd; EvUnlock], run w cmd)).
Proof.
  unfold Login.
  destruct (command (environ w) codex ["login"; "--api-key"; apiKey])
    as [cmd|err] eqn:Hcmd.
  - right. exists cmd. split; [done|].
    split; [|split; [by eapply command_Dir | done]].
    revert Hcmd. unfold command. destruct (logWriter codex); [|by intros [= <-]].
    destruct (string_in _ _); [by intros [= <-] | done].
  - left. by exists err.
Qed.

(** ** The paths of [Invoke] *)

Lemma applyOptions_error_origin (options : list InvokeOption) (o o' : invokeOptions)
    (err : error) :
  applyOptions options o = (o', Some err) ->
  exists (opt : InvokeOption) (o1 : invokeOptions),
    opt ∈ options /\ opt o1 = (o', Some err).
Proof.
  revert o. induction options as [|opt options IH]; intros o; cbn; [done|].
  destruct (opt o) as [o1 [e|]] eqn:Hopt.
  - intros [= <- <-]. exists opt, o. split; [apply list_elem_of_here | done].
  - intros (opt' & o2 & Hin & H)%IH. exists opt', o2.
    split; [by apply list_elem_of_further | done].
Qed.

(** X4.  The calls [Invoke] makes are one of three sequences: none at all;
    a connection that failed, whose error is returned, with no session to
    close; or a connection, one tool call and the close of the session, in
    this order.  So a session that was opened is closed, once, after the
    tool call, also when the call fails or the result panics. *)
Theorem Invoke_trace_shape (w : World) (codex : Codex) (prompt : string)
    (options : list InvokeOption) :
  (Invoke w codex prompt options).1 = [] \/
  (exists (cmd : Cmd) (err : error),
     connect w cmd = Some err /\
     Invoke w codex prompt options = ([EvConnect cmd], Returned ("", Some err))) \/
  (exists (cmd : Cmd) (params : CallToolParams),
     connect w cmd = None /\
     (Invoke w codex prompt options).1 = [EvConnect cmd; EvCallTool params; EvClose]).
Proof.
  unfold Invoke.
  destruct (applyOptions options invokeOptions_zero) as [opts [err|]]; [by left|].
  destruct (command (environ w) codex ["mcp"]) as [cmd|err]; [|by left].
  cbn. destruct (connect w (invokeCmd opts cmd)) as [err|] eqn:Hconn; cbn.
  - right. left. by exists (invokeCmd opts cmd), err.
  - right. right. exists (invokeCmd opts cmd), (invokeParams prompt opts).
    split; [done|]. by destruct (callTool w _ _).
Qed.

(** X5.  An error that [Invoke] returns comes with the empty string as
    result, and it is the error of one of the supplied options, the error
    "invalid log level" of [command], the error of the connection, the error
    of the tool call, or, for an answer flagged [IsError], an error made of
    the text of its first entry. *)
Theorem Invoke_error_origin (w : World) (codex : Codex) (prompt : string)
    (options : list InvokeOption) (s : string) (err : error) :
  (Invoke w codex prompt options).2 = Returned (s, Some err) ->
  s = "" /\
  ((exists (opt : InvokeOption) (o : invokeOptions),
      opt ∈ options /\ (opt o).2 = Some err) \/
   (command (environ w) codex ["mcp"] = inr err /\
    err = errors_New "invalid log level") \/
   (exists cmd : Cmd, connect w cmd = Some err) \/
   (exists (cmd : Cmd) (params : CallToolParams), callTool w cmd params = inr err) \/
   (exists (cmd : Cmd) (params : CallToolParams) (res : CallToolResult)
           (text : string) (rest : list Content_),
      callTool w cmd params = inl res /\ IsError res = true /\
      Content res = TextContent text :: rest /\ err = errors_New text)).
Proof.
  unfold Invoke.
  destruct (applyOptions options invokeOptions_zero) as [opts [e|]] eqn:Hopts.
  { cbn. intros [= <- <-]. split; [done|]. left.
    apply applyOptions_error_origin in Hopts as (opt & o & Hin & Hopt).
    exists opt, o. by rewrite Hopt. }
  destruct (command (environ w) codex ["mcp"]) as [cmd|e] eqn:Hcmd.
  2: { cbn. intros [= <- <-]. split; [done|]. right. left. split; [done|].
       revert Hcmd. unfold command. destruct (logWriter codex); [|done].
       destruct (string_in _ _); [done | by intros [= <-]]. }
  cbn. destruct (connect w (invokeCmd opts cmd)) as [e|] eqn:Hconn; cbn.
  { intros [= <- <-]. split; [done|]. right. right. left. by eexists. }
  destruct (callTool w (invokeCmd opts cmd) (invokeParams prompt opts))
    as [res|e] eqn:Hcall; cbn.
  2: { intros [= <- <-]. split; [done|]. do 3 right. left. by eexists _, _. }
  unfold invokeResult.
  destruct (Content res) as [|[text|] rest] eqn:Hcontent; cbn; try done.
  destruct (IsError res) eqn:Herr; [|done].
  intros [= <- <-]. split; [done|]. do 4 right.
  by exists (invokeCmd opts cmd), (invokeParams prompt opts), res, text, rest.
Qed.

Lemma Invoke_error_origin_witness :
  "" = "" /\
  ((exists (opt : InvokeOption) (o : invokeOptions),
      opt ∈ ([] : list InvokeOption) /\ (opt o).2 = Some (errors_New "boom")) \/
   (command (environ world_boom) (New []) ["mcp"] = inr (errors_New "boom") /\
    errors_New "boom" = errors_New "invalid log level") \/
   (exists cmd : Cmd, connect world_boom cmd = Some (errors_New "boom")) \/
   (exists (cmd : Cmd) (params : CallToolParams),
      callTool world_boom cmd params = inr (errors_New "boom")) \/
   (exists (cmd : Cmd) (params : CallToolParams) (res : CallToolResult)
           (text : string) (rest : list Content_),
      callTool world_boom cmd params = inl res /\ IsError res = true /\
      Content res = TextContent text :: rest /\ errors_New "boom" = errors_New text)).
Proof.
  apply (Invoke_error_origin world_boom (New []) "hi" [] "" (errors_New "boom")).
  reflexivity.
Defined.

(** X6.  [Invoke] returns a text with a nil error exactly when the options
    all succeed, the command is built, the connection is opened and the tool
    call is answered with the flag [IsError] unset and a text entry first;
    the text returned is that entry's. *)
Theorem Invoke_success_iff (w : World) (codex : Codex) (prompt : string)
    (options : list InvokeOption) (text : string) :
  (Invoke w codex prompt options).2 = Returned (text, None) <->
  exists (opts : invokeOptions) (cmd : Cmd) (res : CallToolResult)
         (rest : list Content_),
    applyOptions options invokeOptions_zero = (opts, None) /\
    command (environ w) codex ["mcp"] = inl cmd /\
    connect w (invokeCmd opts cmd) = None /\
    callTool w (invokeCmd opts cmd) (invokeParams prompt opts) = inl res /\
    IsError res = false /\
    Content res = TextContent text :: rest.
Proof.
  split.
  - unfold Invoke.
    destruct (applyOptions options invokeOptions_zero) as [opts [e|]]; [done|].
    destruct (command (environ w) codex ["mcp"]) as [cmd|e]; [|done].
    cbn. destruct (connect w (invokeCmd opts cmd)) as [e|] eqn:Hconn; [done|].
    cbn. destruct (callTool w (invokeCmd opts cmd) (invokeParams prompt opts))
      as [res|e] eqn:Hcall; [|done].
    cbn. unfold invokeResult.
    destruct (Content res) as [|[text'|] rest] eqn:Hcontent; cbn; try done.
    destruct (IsError res) eqn:Herr; [done|].
    intros [= <-]. by exists opts, cmd, res, rest.
  - intros (opts & cmd & res & rest & Hopts & Hcmd & Hconn & Hcall & Herr & Hcontent).
    rewrite (Invoke_answered w codex prompt options opts cmd res) by done.
    cbn. unfold invokeResult. by rewrite Hcontent, Herr.
Qed.


Lemma Invoke_success_iff_witness :
  (Invoke world_ok codex_debug "hi" [WithCwd "/tmp"]).2 = Returned ("ok", None).
Proof.
  apply (proj2 (Invoke_success_iff world_ok codex_debug "hi" [WithCwd "/tmp"] "ok")).
  exists (mkInvokeOptions None None None (Some "/tmp") None None None None),
    (mkCmd "codex" ["codex"; "mcp"]
       (Some ["RUST_LOG=codex_core=debug,codex_tui=debug"; "HOME=/root"; "PATH=/usr/bin"])
       "" (Some "os.Stderr")),
    (mkCallToolResult [TextContent "ok"; OtherContent] false), [OtherContent].
  repeat split.
Defined.


(** ** From an option to the request *)

Lemma applyOptions_split (pre post : list InvokeOption) (opt : InvokeOption)
    (o opts : invokeOptions) :
  applyOptions (pre ++ opt :: post)%list o = (opts, None) ->
  exists o1 o2 : invokeOptions,
    applyOptions pre o = (o1, None) /\ opt o1 = (o2, None) /\
    applyOptions post o2 = (opts, None).
Proof.
  rewrite applyOptions_app.
  destruct (applyOptions pre o) as [o1 [e|]]; [done|]. cbn.
  destruct (opt o1) as [o2 [e|]] eqn:Hopt; [done|].
  intros Hpost. by exists o1, o2.
Qed.

Lemma applyOptions_keeps {A : Type} (f : invokeOptions -> A)
    (post : list InvokeOption) (o : invokeOptions) :
  Forall (keeps f) post -> f (applyOptions post o).1 = f o.
Proof.
  revert o. induction post as [|opt post IH]; intros o Hpost; [done|].
  apply Forall_cons in Hpost as [Hopt Hpost]. cbn.
  specialize (Hopt o). destruct (opt o) as [o1 [e|]]; [done|].
  by rewrite IH.
Qed.

(** What reaches the request after [opt], when the options after it keep the
    field [f]. *)
Lemma Invoke_calls_after {A : Type} (f : invokeOptions -> A)
    (w : World) (codex : Codex) (prompt : string)
    (pre post : list InvokeOption) (opt : InvokeOption) (params : CallToolParams) :
  EvCallTool params ∈ (Invoke w codex prompt (pre ++ opt :: post)%list).1 ->
  Forall (keeps f) post ->
  exists o1 o2 opts : invokeOptions,
    opt o1 = (o2, None) /\ f opts = f o2 /\ params = invokeParams prompt opts.
Proof.
  intros (opts & Hopts & ->)%Invoke_calls Hpost.
  apply applyOptions_split in Hopts as (o1 & o2 & _ & Hopt & Hrest).
  exists o1, o2, opts. split; [done|]. split; [|done].
  rewrite <- (applyOptions_keeps f post o2 Hpost). by rewrite Hrest.
Qed.

(** The options of the package touch their own field only. *)
Lemma package_options_keep :
  (forall v, keeps Sandbox (WithApprovalPolicy v) /\ keeps Cwd (WithApprovalPolicy v) /\
             keeps Model (WithApprovalPolicy v) /\ keeps Config (WithApprovalPolicy v)) /\
  (forall v, keeps ApprovalPolicy (WithSandbox v) /\ keeps Cwd (WithSandbox v) /\
             keeps Model (WithSandbox v) /\ keeps Config (WithSandbox v)) /\
  (forall v, keeps ApprovalPolicy (WithModel v) /\ keeps Sandbox (WithModel v) /\
             keeps Cwd (WithModel v) /\ keeps Config (WithModel v)) /\
  (forall v, keeps ApprovalPolicy (WithCwd v) /\ keeps Sandbox (WithCwd v) /\
             keeps Model (WithCwd v) /\ keeps Config (WithCwd v)) /\
  (forall v, keeps ApprovalPolicy (WithConfig v) /\ keeps Sandbox (WithConfig v) /\
             keeps Model (WithConfig v) /\ keeps Cwd (WithConfig v)).
Proof.
  split_and!; intros v; split_and!; intros o; try done;
    unfold WithApprovalPolicy, WithSandbox; by destruct (string_in _ _).
Qed.

(** X8.  If [Invoke] reaches the tool call with [WithSandbox v] among its
    options and no later option changing the field, then [v] is one of
    read-only, workspace-write, danger-full-access and the request holds [v]
    under the key [sandbox]. *)
Theorem WithSandbox_reaches_request (w : World) (codex : Codex) (prompt : string)
    (pre post : list InvokeOption) (v : string) (params : CallToolParams) :
  EvCallTool params ∈ (Invoke w codex prompt (pre ++ WithSandbox v :: post)%list).1 ->
  Forall (keeps Sandbox) post ->
  v ∈ ["read-only"; "workspace-write"; "danger-full-access"] /\
  Arguments params !! "sandbox" = Some (any_string v).
Proof.
  intros Hcall Hpost.
  destruct (Invoke_calls_after Sandbox _ _ _ _ _ _ _ Hcall Hpost)
    as (o1 & o2 & opts & Hopt & Hf & ->).
  pose proof (invokeArguments_lookup prompt opts) as (_&_&_&_&_&_&_&Hlookup).
  cbn. rewrite Hlookup, Hf. revert Hopt. unfold WithSandbox.
  destruct (string_in v _) eqn:Hv; [|done].
  intros [= <-]. split; [by apply string_in_true | done].
Qed.

Lemma WithSandbox_reaches_request_witness :
  "workspace-write" ∈ ["read-only"; "workspace-write"; "danger-full-access"] /\
  Arguments (invokeParams "hi"
               (mkInvokeOptions None None None None None (Some "o3") None
                  (Some "workspace-write")))
    !! "sandbox" = Some (any_string "workspace-write").
Proof.
  apply (WithSandbox_reaches_request world_ok (New []) "hi"
           [WithSandbox "read-only"] [WithModel "o3"] "workspace-write").
  - apply list_elem_of_further, list_elem_of_here.
  - repeat constructor.
Defined.

(** X9.  The same for [WithApprovalPolicy v]: when the tool call is reached
    [v] is one of untrusted, on-failure, never and the request holds it under
    the key [approval-policy]. *)
Theorem WithApprovalPolicy_reaches_request (w : World) (codex : Codex)
    (prompt : string) (pre post : list InvokeOption) (v : string)
    (params : CallToolParams) :
  EvCallTool params
    ∈ (Invoke w codex prompt (pre ++ WithApprovalPolicy v :: post)%list).1 ->
  Forall (keeps ApprovalPolicy) post ->
  v ∈ ["untrusted"; "on-failure"; "never"] /\
  Arguments params !! "approval-policy" = Some (any_string v).
Proof.
  intros Hcall Hpost.
  destruct (Invoke_calls_after ApprovalPolicy _ _ _ _ _ _ _ Hcall Hpost)
    as (o1 & o2 & opts & Hopt & Hf & ->).
  pose proof (invokeArguments_lookup prompt opts) as (_&Hlookup&_).
  cbn. rewrite Hlookup, Hf. revert Hopt. unfold WithApprovalPolicy.
  destruct (string_in v _) eqn:Hv; [|done].
  intros [= <-]. split; [by apply string_in_true | done].
Qed.

Lemma WithApprovalPolicy_reaches_request_witness :
  "never" ∈ ["untrusted"; "on-failure"; "never"] /\
  Arguments (invokeParams "hi"
               (mkInvokeOptions (Some "never") None None (Some ".") None None None
                  (Some "read-only")))
    !! "approval-policy" = Some (any_string "never").
Proof.
  apply (WithApprovalPolicy_reaches_request world_ok (New []) "hi"
           [WithCwd "."; WithSandbox "read-only"] [] "never").
  - apply list_elem_of_further, list_elem_of_here.
  - constructor.
Defined.

(** X10.  With [WithConfig config] among the options and no later option
    changing the field, a request that is sent holds the map under the key
    [config] when the map is not nil, an empty map included, and has no key
    [config] when the map is nil. *)
Theorem WithConfig_reaches_request (w : World) (codex : Codex) (prompt : string)
    (pre post : list InvokeOption) (config : option (gmap string any))
    (params : CallToolParams) :
  EvCallTool params ∈ (Invoke w codex prompt (pre ++ WithConfig config :: post)%list).1 ->
  Forall (keeps Config) post ->
  Arguments params !! "config" = any_map <$> config /\
  (config = None -> "config" ∉ dom (Arguments params)) /\
  (config = Some ∅ -> Arguments params !! "config" = Some (any_map ∅)).
Proof.
  intros Hcall Hpost.
  destruct (Invoke_calls_after Config _ _ _ _ _ _ _ Hcall Hpost)
    as (o1 & o2 & opts & [= <-] & Hf & ->).
  pose proof (invokeArguments_lookup prompt opts) as (_&_&_&Hlookup&_).
  cbn in *. rewrite Hlookup, Hf. split_and!; [done | |].
  - intros ->. rewrite not_elem_of_dom. by rewrite Hlookup, Hf.
  - by intros ->.
Qed.

Lemma WithConfig_reaches_request_witness :
  Arguments (invokeParams "hi"
               (mkInvokeOptions None None (Some ∅) None None (Some "o3") None None))
    !! "config" = Some (any_map ∅).
Proof.
  refine (proj2 (proj2 (WithConfig_reaches_request world_ok (New []) "hi"
            [WithConfig None] [WithModel "o3"] (Some ∅)
            (invokeParams "hi"
               (mkInvokeOptions None None (Some ∅) None None (Some "o3") None None))
            _ _)) eq_refl).
  - apply list_elem_of_further, list_elem_of_here.
  - repeat constructor.
Defined.

(** X11.  With [WithCwd dir] among the options and no later option changing
    the field, the subprocess that [Invoke] connects to has [dir] as its
    working directory, and the executable, arguments, environment and stderr
    that [command] gave it for [mcp]. *)
Theorem WithCwd_reaches_subprocess (w : World) (codex : Codex) (prompt : string)
    (pre post : list InvokeOption) (dir : string) (cmd' : Cmd) :
  EvConnect cmd' ∈ (Invoke w codex prompt (pre ++ WithCwd dir :: post)%list).1 ->
  Forall (keeps Cwd) post ->
  Dir cmd' = dir /\
  Args cmd' = [executablePath codex; "mcp"] /\
  exists cmd : Cmd,
    command (environ w) codex ["mcp"] = inl cmd /\
    Env cmd' = Env cmd /\ Stderr cmd' = Stderr cmd.
Proof.
  intros (opts & cmd & Hopts & Hcmd & ->)%Invoke_connects Hpost.
  apply applyOptions_split in Hopts as (o1 & o2 & _ & [= <-] & Hrest).
  pose proof (applyOptions_keeps Cwd post (WithCwd dir o1).1 Hpost) as Hkeep.
  cbn in Hkeep. rewrite Hrest in Hkeep. cbn in Hkeep.
  unfold invokeCmd. rewrite Hkeep. cbn. split; [done|]. split.
  - revert Hcmd. unfold command. destruct (logWriter codex); [|by intros [= <-]].
    destruct (string_in _ _); [by intros [= <-] | done].
  - by exists cmd.
Qed.

Lemma WithCwd_reaches_subprocess_witness :
  Dir (mkCmd "codex" ["codex"; "mcp"] None "/srv" None) = "/srv" /\
  Args (mkCmd "codex" ["codex"; "mcp"] None "/srv" None)
  = [executablePath (New []); "mcp"] /\
  exists cmd : Cmd,
    command (environ world_ok) (New []) ["mcp"] = inl cmd /\
    Env (mkCmd "codex" ["codex"; "mcp"] None "/srv" None) = Env cmd /\
    Stderr (mkCmd "codex" ["codex"; "mcp"] None "/srv" None) = Stderr cmd.
Proof.
  apply (WithCwd_reaches_subprocess world_ok (New []) "hi"
           [WithCwd "/tmp"] [WithModel "o3"] "/srv").
  - apply list_elem_of_here.
  - repeat constructor.
Defined.



(** X13.  The request is a faithful copy: two argument mappings built by
    [Invoke] are equal only if the prompts are equal and the option
    structures agree on every field but [Cwd]. *)
Theorem invokeArguments_injective (prompt prompt' : string) (o o' : invokeOptions) :
  invokeArguments prompt o = invokeArguments prompt' o' ->
  prompt = prompt' /\
  ApprovalPolicy o = ApprovalPolicy o' /\
  BaseInstructions o = BaseInstructions o' /\
  Config o = Config o' /\
  IncludePlanTool o = IncludePlanTool o' /\
  Model o = Model o' /\
  Profile o = Profile o' /\
  Sandbox o = Sandbox o'.
Proof.
  intros Heq.
  pose proof (invokeArguments_lookup prompt o) as (H1&H2&H3&H4&H5&H6&H7&H8).
  pose proof (invokeArguments_lookup prompt' o') as (H1'&H2'&H3'&H4'&H5'&H6'&H7'&H8').
  rewrite Heq in H1, H2, H3, H4, H5, H6, H7, H8.
  rewrite H1 in H1'. rewrite H2 in H2'. rewrite H3 in H3'. rewrite H4 in H4'.
  rewrite H5 in H5'. rewrite H6 in H6'. rewrite H7 in H7'. rewrite H8 in H8'.
  clear -H1' H2' H3' H4' H5' H6' H7' H8'.
  destruct o as [a b c d e f g h], o' as [a' b' c' d' e' f' g' h']. cbn in *.
  split_and!.
  - congruence.
  - destruct a, a'; naive_solver.
  - destruct b, b'; naive_solver.
  - destruct c, c'; naive_solver.
  - destruct e, e'; naive_solver.
  - destruct f, f'; naive_solver.
  - destruct g, g'; naive_solver.
  - destruct h, h'; naive_solver.
Qed.

Lemma invokeArguments_injective_witness :
  "hi" = "hi" /\
  ApprovalPolicy (WithCwd "/a" invokeOptions_zero).1
  = ApprovalPolicy (WithCwd "/b" invokeOptions_zero).1 /\
  BaseInstructions (WithCwd "/a" invokeOptions_zero).1
  = BaseInstructions (WithCwd "/b" invokeOptions_zero).1 /\
  Config (WithCwd "/a" invokeOptions_zero).1
  = Config (WithCwd "/b" invokeOptions_zero).1 /\
  IncludePlanTool (WithCwd "/a" invokeOptions_zero).1
  = IncludePlanTool (WithCwd "/b" invokeOptions_zero).1 /\
  Model (WithCwd "/a" invokeOptions_zero).1 = Model (WithCwd "/b" invokeOptions_zero).1 /\
  Profile (WithCwd "/a" invokeOptions_zero).1
  = Profile (WithCwd "/b" invokeOptions_zero).1 /\
  Sandbox (WithCwd "/a" invokeOptions_zero).1
  = Sandbox (WithCwd "/b" invokeOptions_zero).1.
Proof.
  apply (invokeArguments_injective "hi" "hi"). reflexivity.
Defined.

(** ** The lock comes back *)

Section LoginLockAvailable.
Context (env : list string) (codex : Codex) (apiKey : tid -> string).

Local Abbreviation step := (step env codex apiKey).
Local Abbreviation reachable := (reachable env codex apiKey).

Local Abbreviation finishes := (finishes env codex apiKey).

Lemma finishes_from_Returning (s : state) (t0 : tid) (r : option error) :
  pcs s t0 = Returning r -> finishes s t0.
Proof.
  intros Hpc. eexists _, r. split_and!.
  - eapply rtc_once, step_Unlock, Hpc.
  - done.
  - cbn. apply fn_lookup_insert.
  - intros t Hne. cbn. by rewrite fn_lookup_insert_ne.
Qed.

Lemma finishes_after_step (s s1 : state) (t0 : tid) :
  step s s1 -> (forall t : tid, t ≠ t0 -> pcs s1 t = pcs s t) ->
  finishes s1 t0 -> finishes s t0.
Proof.
  intros Hstep Hsame (s' & r & Hsteps & Hfree & Hdone & Hothers).
  exists s', r. split_and!; try done.
  - by eapply rtc_l.
  - intros t Hne. by rewrite Hothers, Hsame.
Qed.

Lemma finishes_from_Running (s : state) (t0 : tid) (cmd : Cmd) :
  pcs s t0 = Running cmd -> finishes s t0.
Proof.
  intros Hpc.
  eapply finishes_after_step.
  - eapply (step_Run_returns _ _ _ t0 s cmd None), Hpc.
  - intros t Hne. cbn. by rewrite fn_lookup_insert_ne.
  - eapply (finishes_from_Returning _ t0 None). cbn. apply fn_lookup_insert.
Qed.

Lemma finishes_from_Locked (s : state) (t0 : tid) :
  pcs s t0 = Locked -> finishes s t0.
Proof.
  intros Hpc.
  destruct (command env codex ["login"; "--api-key"; apiKey t0]) as [cmd|err] eqn:Hcmd.
  - eapply finishes_after_step.
    + eapply (step_command_ok _ _ _ t0 s cmd); done.
    + intros t Hne. cbn. by rewrite fn_lookup_insert_ne.
    + eapply (finishes_from_Running _ t0 cmd). cbn. apply fn_lookup_insert.
  - eapply finishes_after_step.
    + eapply (step_command_error _ _ _ t0 s err); done.
    + intros t Hne. cbn. by rewrite fn_lookup_insert_ne.
    + eapply (finishes_from_Returning _ t0 (Some err)). cbn. apply fn_lookup_insert.
Qed.

End LoginLockAvailable.


(** ** What [Invoke] puts where *)

(** X15.  The request depends on the prompt and the options only: two runs
    of [Invoke] with the same prompt and options that both reach the tool
    call send the same parameters, whatever the clients (executable, sink,
    level) and the worlds (environment, answers) are. *)
Theorem Invoke_request_ignores_client (w w' : World) (codex codex' : Codex)
    (prompt : string) (options : list InvokeOption) (params params' : CallToolParams) :
  EvCallTool params ∈ (Invoke w codex prompt options).1 ->
  EvCallTool params' ∈ (Invoke w' codex' prompt options).1 ->
  params = params'.
Proof.
  intros (opts & Hopts & ->)%Invoke_calls (opts' & Hopts' & ->)%Invoke_calls.
  congruence.
Qed.

Lemma Invoke_request_ignores_client_witness :
  invokeParams "hi" (mkInvokeOptions None None None None None (Some "o3") None None)
  = invokeParams "hi" (mkInvokeOptions None None None None None (Some "o3") None None).
Proof.
  apply (Invoke_request_ignores_client world_ok world_boom (New []) codex_debug "hi"
           [WithModel "o3"]);
    apply list_elem_of_further, list_elem_of_here.
Defined.

(** X16.  The process [Invoke] connects to is always started as
    [executable mcp]: neither the prompt nor any option reaches its command
    line, and its environment is either inherited or the inherited one behind
    one RUST_LOG entry. *)
Theorem Invoke_command_line (w : World) (codex : Codex) (prompt : string)
    (options : list InvokeOption) (cmd' : Cmd) :
  EvConnect cmd' ∈ (Invoke w codex prompt options).1 ->
  Path cmd' = executablePath codex /\
  Args cmd' = [executablePath codex; "mcp"] /\
  (Env cmd' = None \/
   Env cmd' = Some (("RUST_LOG=codex_core=" +:+ logLevel codex
                       +:+ ",codex_tui=" +:+ logLevel codex) :: environ w)).
Proof.
  intros (opts & cmd & _ & Hcmd & ->)%Invoke_connects.
  assert (Path (invokeCmd opts cmd) = Path cmd /\ Args (invokeCmd opts cmd) = Args cmd /\
          Env (invokeCmd opts cmd) = Env cmd) as (-> & -> & ->).
  { unfold invokeCmd. by destruct (Cwd opts). }
  revert Hcmd. unfold command. destruct (logWriter codex).
  - destruct (string_in _ _); [|done]. intros [= <-]. split_and!; try done. by right.
  - intros [= <-]. split_and!; try done. by left.
Qed.

Lemma Invoke_command_line_witness :
  Path (mkCmd "codex" ["codex"; "mcp"] None "/tmp" None) = executablePath (New []) /\
  Args (mkCmd "codex" ["codex"; "mcp"] None "/tmp" None)
  = [executablePath (New []); "mcp"] /\
  (Env (mkCmd "codex" ["codex"; "mcp"] None "/tmp" None) = None \/
   Env (mkCmd "codex" ["codex"; "mcp"] None "/tmp" None)
   = Some (("RUST_LOG=codex_core=" +:+ logLevel (New [])
              +:+ ",codex_tui=" +:+ logLevel (New [])) :: environ world_ok)).
Proof.
  apply (Invoke_command_line world_ok (New []) "secret prompt" [WithCwd "/tmp"]).
  apply list_elem_of_here.
Defined.
